(** * bubble_sort.cpp: the sorter, the printer and the driver

    A shallow embedding of [src/bubble_sort.cpp].  A [std::vector<int>] is a
    [list Z]; the [int] locals [n], [i] and [j] are integers of [Z] kept in the
    32-bit two's complement range by [to_int]; [operator[]] is stdpp's list
    lookup and insert behind an explicit sign test on the index. *)

From stdpp Require Import gmultiset list numbers strings pretty sorting.
From Stdlib Require Import ZArith Lia Ascii.

Local Open Scope Z_scope.

(** ** The [int] type *)

Module Int.

Definition INT_MIN : Z := - 2 ^ 31.
Definition INT_MAX : Z := 2 ^ 31 - 1.

(** The value of type [int] congruent to [z] modulo [2^32]: what the
    conversion of a [size_t] to [int] yields, and what [int] arithmetic
    yields under two's complement wrap-around.  The one operation of
    [bubbleSort] that can leave the range is [n - 1] at [n = INT_MIN] (a
    vector whose size is [2^31] modulo [2^32]); everywhere else the results
    are in range and [to_int] is the identity on them. *)
Definition to_int (z : Z) : Z := (z + 2 ^ 31) mod 2 ^ 32 - 2 ^ 31.

Definition add (a b : Z) : Z := to_int (a + b).
Definition sub (a b : Z) : Z := to_int (a - b).

Definition in_range (z : Z) : Prop := INT_MIN ≤ z ≤ INT_MAX.

End Int.

(** ** The vector *)

(** [arr.size()], a [size_t]. *)
Definition size {A} (arr : list A) : Z := Z.of_nat (length arr).

(** [arr[j]] read with an [int] index: a negative [j] converts to a [size_t]
    beyond every size, so it names no cell. *)
Definition vec_get {A} (arr : list A) (j : Z) : option A :=
  if bool_decide (0 ≤ j) then arr !! Z.to_nat j else None.

(** [arr[j] = x]. *)
Definition vec_set {A} (arr : list A) (j : Z) (x : A) : list A :=
  if bool_decide (0 ≤ j) then <[Z.to_nat j := x]> arr else arr.

(** The values [k] takes in [for (int k = 0; k < bound; k++)]. *)
Definition int_range (bound : Z) : list Z := Z.of_nat <$> seq 0 (Z.to_nat bound).

(** ** bubbleSort *)

(** The body of the inner loop:
    [if (arr[j] > arr[j + 1]) std::swap(arr[j], arr[j + 1]);]
    A cell outside the vector is not touched (it is shown below that the
    loops never name one). *)
Definition cmp_swap (arr : list Z) (j : Z) : list Z :=
  match vec_get arr j, vec_get arr (Int.add j 1) with
  | Some x, Some y =>
      if bool_decide (x > y) then vec_set (vec_set arr j y) (Int.add j 1) x else arr
  | _, _ => arr
  end.

(** The bound of the inner loop, [n - i - 1]. *)
Definition inner_bound (n i : Z) : Z := Int.sub (Int.sub n i) 1.

(** [for (int j = 0; j < n - i - 1; j++) ...]: one pass. *)
Definition inner_loop (n i : Z) (arr : list Z) : list Z :=
  foldl cmp_swap arr (int_range (inner_bound n i)).

(** The values [i] takes in the outer loop, [for (int i = 0; i < n - 1; i++)]. *)
Definition outer_range (arr : list Z) : list Z :=
  int_range (Int.sub (Int.to_int (size arr)) 1).

(** The vector after the first [k] passes. *)
Definition after_passes (k : nat) (arr : list Z) : list Z :=
  let n := Int.to_int (size arr) in
  foldl (λ a i, inner_loop n i a) arr (take k (outer_range arr)).

Definition bubbleSort (arr : list Z) : list Z :=
  let n := Int.to_int (size arr) in
  foldl (λ a i, inner_loop n i a) arr (outer_range arr).

(** *** The loops as written, with fuel

    The same two loops with their counters and tests spelled out; [None] is
    "out of fuel".  [fuel] bounds the iterations of one run of a loop: every
    run of the inner loop starts with the whole of it. *)

Fixpoint inner_run (fuel : nat) (n i j : Z) (arr : list Z) : option (list Z) :=
  match fuel with
  | O => None
  | S fuel =>
      if bool_decide (j < inner_bound n i)
      then inner_run fuel n i (Int.add j 1) (cmp_swap arr j)
      else Some arr
  end.

Fixpoint outer_run (fuel inner_fuel : nat) (n i : Z) (arr : list Z) : option (list Z) :=
  match fuel with
  | O => None
  | S fuel =>
      if bool_decide (i < Int.sub n 1)
      then match inner_run inner_fuel n i 0 arr with
           | Some arr' => outer_run fuel inner_fuel n (Int.add i 1) arr'
           | None => None
           end
      else Some arr
  end.

Definition bubbleSort_run (fuel : nat) (arr : list Z) : option (list Z) :=
  outer_run fuel fuel (Int.to_int (size arr)) 0 arr.

(** ** printArray and main *)

Definition endl : string := String (Ascii.ascii_of_nat 10) EmptyString.

(** The body of the printer's loop, [std::cout << num << " "], on the text
    already sent to [std::cout]. *)
Definition print_num (out : string) (num : Z) : string := out +:+ pretty num +:+ " ".

(** [printArray]: the loop, then [std::cout << std::endl]. *)
Definition printArray (out : string) (arr : list Z) : string :=
  foldl print_num out arr +:+ endl.

Definition main_arr : list Z := [64; 34; 25; 12; 22; 11; 90].

(** [main]: the text on standard output and the exit status. *)
Definition main (fuel : nat) : option (string * Z) :=
  let arr := main_arr in
  let out := "排序前的数组: " in
  let out := printArray out arr in
  match bubbleSort_run fuel arr with
  | Some arr =>
      let out := out +:+ "排序后的数组: " in
      let out := printArray out arr in
      Some (out, 0)
  | None => None
  end.

(** ** The sorter on elements that carry a key

    [bubbleSort] with the comparison made on a key of each element.  On plain
    integers ([key = id]) it is [bubbleSort] itself; elements that carry more
    than their key make the order of equal keys visible. *)

Section Keyed.
Context {A : Type} (key : A → Z).

Definition cmp_swap_by (arr : list A) (j : Z) : list A :=
  match vec_get arr j, vec_get arr (Int.add j 1) with
  | Some x, Some y =>
      if bool_decide (key x > key y)
      then vec_set (vec_set arr j y) (Int.add j 1) x else arr
  | _, _ => arr
  end.

Definition inner_loop_by (n i : Z) (arr : list A) : list A :=
  foldl cmp_swap_by arr (int_range (inner_bound n i)).

Definition bubbleSort_by (arr : list A) : list A :=
  let n := Int.to_int (size arr) in
  foldl (λ a i, inner_loop_by n i a) arr (int_range (Int.sub n 1)).

End Keyed.

(** ** What the specification says of the printer

    The elements in order, separated by a single space, then the line
    terminator. *)
Definition print_separated (arr : list Z) : string :=
  String.concat " " (pretty <$> arr) +:+ endl.

(** ** Order and stability, as the claims word them *)

(** For every pair of valid indices [i < j], [arr[i] <= arr[j]]. *)
Definition nondecreasing (arr : list Z) : Prop :=
  ∀ (i j : nat) (x y : Z),
    (i < j)%nat → arr !! i = Some x → arr !! j = Some y → x ≤ y.

(** The elements whose key is [v], in the order they stand in. *)
Definition with_key {A} (key : A → Z) (v : Z) (arr : list A) : list A :=
  filter (λ a, key a = v) arr.

(** ** The passes, read on the list

    What one run of the inner loop does to a list, by recursion on the list:
    [bubble m x l] carries [x] to the right through the first [m] cells of
    [l], leaving the smaller of each compared pair behind. *)

Fixpoint bubble (m : nat) (x : Z) (l : list Z) : list Z :=
  match m, l with
  | S m, y :: l => if bool_decide (x > y) then y :: bubble m x l else x :: bubble m y l
  | _, _ => x :: l
  end.

(** The inner loop with bound [b]. *)
Definition pass (b : nat) (arr : list Z) : list Z :=
  match arr with
  | [] => []
  | x :: l => bubble b x l
  end.

(** [k] passes with the bounds [b], [b - 1], ... *)
Fixpoint passes (b k : nat) (arr : list Z) : list Z :=
  match k with
  | O => arr
  | S k => passes (b - 1) k (pass b arr)
  end.

(** ** A vector longer than [int] can count

    [N] ones followed by a zero. *)
Definition ones_then_zero (N : nat) : list Z := replicate N 1 ++ [0].

(** ** bubbleSort with checked accesses

    The same loops with every [arr[j]] checked against the size, as
    [arr.at(j)] would: [None] as soon as a comparison names a cell that is
    not in the vector. *)

Definition cmp_swap_checked (arr : list Z) (j : Z) : option (list Z) :=
  x ← vec_get arr j;
  y ← vec_get arr (Int.add j 1);
  Some (if bool_decide (x > y) then vec_set (vec_set arr j y) (Int.add j 1) x else arr).

Definition inner_loop_checked (n i : Z) (arr : list Z) : option (list Z) :=
  foldl (λ a j, a ≫= λ a, cmp_swap_checked a j) (Some arr) (int_range (inner_bound n i)).

Definition bubbleSort_checked (arr : list Z) : option (list Z) :=
  let n := Int.to_int (size arr) in
  foldl (λ a i, a ≫= inner_loop_checked n i) (Some arr) (outer_range arr).

(** ** bubbleSort with its work counted

    The same loops on the vector together with two counters: the evaluations
    of the test [arr[j] > arr[j + 1]] and the calls of [std::swap]. *)

Record counted := Counted { cells : list Z; comparisons : nat; swaps : nat }.

Definition cmp_swap_count (t : counted) (j : Z) : counted :=
  match vec_get (cells t) j, vec_get (cells t) (Int.add j 1) with
  | Some x, Some y =>
      if bool_decide (x > y)
      then Counted (vec_set (vec_set (cells t) j y) (Int.add j 1) x)
                   (S (comparisons t)) (S (swaps t))
      else Counted (cells t) (S (comparisons t)) (swaps t)
  | _, _ => Counted (cells t) (S (comparisons t)) (swaps t)
  end.

Definition inner_loop_count (n i : Z) (t : counted) : counted :=
  foldl cmp_swap_count t (int_range (inner_bound n i)).

Definition bubbleSort_count (arr : list Z) : counted :=
  let n := Int.to_int (size arr) in
  foldl (λ t i, inner_loop_count n i t) (Counted arr 0 0) (outer_range arr).

(** The pairs of cells that stand in the wrong order: for each element, the
    smaller elements after it. *)
Fixpoint inversions (l : list Z) : nat :=
  match l with
  | [] => 0
  | x :: l => length (filter (λ y, x > y) l) + inversions l
  end.

(** How many times the character [c] stands in the text [s]. *)
Fixpoint count_char (c : Ascii.ascii) (s : string) : nat :=
  match s with
  | EmptyString => 0
  | String a s => (if decide (a = c) then 1 else 0) + count_char c s
  end.

Example bubbleSort_ex1 : bubbleSort [3; 1; 2] = [1; 2; 3].
Proof. vm_compute. reflexivity. Qed.

Example bubbleSort_run_ex1 : bubbleSort_run 5 [3; 1; 2] = Some [1; 2; 3].
Proof. vm_compute. reflexivity. Qed.

Example printArray_ex1 : printArray "" [3; -1] = "3 -1 " +:+ endl.
Proof. vm_compute. reflexivity. Qed.

(** * Proofs *)

(** ** [int] arithmetic *)

Module IntFacts.
Import Int.

Lemma to_int_range z : in_range (to_int z).
Proof. unfold in_range, to_int, INT_MIN, INT_MAX. Z.div_mod_to_equations. lia. Qed.

Lemma to_int_id z : in_range z → to_int z = z.
Proof.
  unfold in_range, to_int, INT_MIN, INT_MAX. intros Hz.
  Z.div_mod_to_equations. lia.
Qed.

Lemma add_1 j : INT_MIN ≤ j < INT_MAX → add j 1 = j + 1.
Proof. intros Hj. apply to_int_id. unfold in_range in *. lia. Qed.

(** The one increment that wraps. *)
Lemma add_1_max : add INT_MAX 1 = INT_MIN.
Proof. reflexivity. Qed.

(** A size that fits [int] is converted to itself. *)
Lemma to_int_size {A} (arr : list A) :
  size arr ≤ INT_MAX → to_int (size arr) = size arr.
Proof.
  intros H. apply to_int_id. unfold in_range, INT_MIN, size in *. lia.
Qed.

(** The converted size never exceeds the size unless it is negative. *)
Lemma to_int_size_le {A} (arr : list A) :
  0 ≤ to_int (size arr) → to_int (size arr) ≤ size arr.
Proof.
  unfold size, to_int. generalize (Z.of_nat (length arr)) (Nat2Z.is_nonneg (length arr)).
  intros z Hz. Z.div_mod_to_equations. lia.
Qed.

End IntFacts.

(** ** One comparison *)

Section KeyedFacts.
Context {A : Type} (key : A → Z).

Lemma vec_get_of_nat (arr : list A) (k : nat) : vec_get arr (Z.of_nat k) = arr !! k.
Proof.
  unfold vec_get. rewrite bool_decide_eq_true_2 by lia. by rewrite Nat2Z.id.
Qed.

Lemma vec_get_negative (arr : list A) (j : Z) : j < 0 → vec_get arr j = None.
Proof. intros Hj. unfold vec_get. by rewrite bool_decide_eq_false_2 by lia. Qed.

Lemma vec_set_of_nat (arr : list A) (k : nat) x :
  vec_set arr (Z.of_nat k) x = <[k := x]> arr.
Proof.
  unfold vec_set. rewrite bool_decide_eq_true_2 by lia. by rewrite Nat2Z.id.
Qed.

Lemma add_1_of_nat (k : nat) :
  Z.of_nat k < Int.INT_MAX → Int.add (Z.of_nat k) 1 = Z.of_nat (S k).
Proof.
  intros Hk. rewrite IntFacts.add_1; [lia|]. unfold Int.INT_MIN. lia.
Qed.

(** The comparison at the seam of [pre] and [x :: y :: post]. *)
Lemma cmp_swap_by_middle pre x y post :
  Z.of_nat (length pre) < Int.INT_MAX →
  cmp_swap_by key (pre ++ x :: y :: post) (Z.of_nat (length pre))
  = pre ++ (if bool_decide (key x > key y) then y :: x :: post else x :: y :: post).
Proof.
  intros Hk. unfold cmp_swap_by.
  rewrite add_1_of_nat by done. rewrite !vec_get_of_nat.
  rewrite list_lookup_middle by done.
  rewrite (lookup_app_r pre) by lia.
  replace (S (length pre) - length pre)%nat with 1%nat by lia. simpl.
  case_bool_decide; [|done].
  rewrite !vec_set_of_nat.
  rewrite insert_app_r_alt by lia. rewrite Nat.sub_diag. simpl.
  rewrite insert_app_r_alt by lia.
  replace (S (length pre) - length pre)%nat with 1%nat by lia. done.
Qed.

(** A comparison that names a cell outside the vector changes nothing. *)
Lemma cmp_swap_by_outside (arr : list A) (k : nat) :
  Z.of_nat k < Int.INT_MAX → (length arr ≤ S k)%nat →
  cmp_swap_by key arr (Z.of_nat k) = arr.
Proof.
  intros Hk Hlen. unfold cmp_swap_by.
  rewrite add_1_of_nat by done. rewrite !vec_get_of_nat.
  rewrite (lookup_ge_None_2 arr (S k)) by done. by destruct (arr !! k).
Qed.

(** Every comparison either leaves the vector as it is or exchanges two
    neighbours of which the left has the strictly greater key. *)
Lemma cmp_swap_by_cases (arr : list A) (j : Z) :
  Int.in_range j →
  cmp_swap_by key arr j = arr ∨
  ∃ pre x y post,
    arr = pre ++ x :: y :: post ∧ j = Z.of_nat (length pre) ∧
    key x > key y ∧ cmp_swap_by key arr j = pre ++ y :: x :: post.
Proof.
  intros [Hlo Hhi].
  destruct (decide (0 ≤ j)) as [Hj|Hj]; cycle 1.
  { left. unfold cmp_swap_by, vec_get. by rewrite bool_decide_eq_false_2. }
  destruct (decide (j = Int.INT_MAX)) as [->|Hne].
  { left. unfold cmp_swap_by. rewrite IntFacts.add_1_max.
    rewrite (vec_get_negative arr Int.INT_MIN) by (unfold Int.INT_MIN; lia).
    by destruct (vec_get arr Int.INT_MAX). }
  rewrite <- (Z2Nat.id j) by done. set (k := Z.to_nat j).
  assert (Z.of_nat k < Int.INT_MAX) as Hk by lia.
  destruct (arr !! S k) as [y|] eqn:Hy; cycle 1.
  { left. apply cmp_swap_by_outside; [done|]. by apply lookup_ge_None. }
  assert (is_Some (arr !! k)) as [x Hx].
  { apply lookup_lt_is_Some. apply lookup_lt_Some in Hy. lia. }
  pose proof (take_drop_middle arr k x Hx) as Harr.
  assert (drop (S k) arr = y :: drop (S (S k)) arr) as Hdrop.
  { by apply drop_S. }
  rewrite Hdrop in Harr.
  assert (length (take k arr) = k) as Hlen.
  { rewrite length_take. apply lookup_lt_Some in Hx. lia. }
  destruct (decide (key x > key y)) as [Hgt|Hle].
  - right. exists (take k arr), x, y, (drop (S (S k)) arr).
    split; [done|]. split; [by rewrite Hlen|]. split; [done|].
    rewrite <- Harr at 1. rewrite <- Hlen at 3.
    rewrite cmp_swap_by_middle by (rewrite Hlen; done).
    by rewrite bool_decide_eq_true_2.
  - left. rewrite <- Harr at 1. rewrite <- Hlen at 3.
    rewrite cmp_swap_by_middle by (rewrite Hlen; done).
    by rewrite bool_decide_eq_false_2.
Qed.

Lemma vec_get_fmap (arr : list A) j : vec_get (key <$> arr) j = key <$> vec_get arr j.
Proof. unfold vec_get. case_bool_decide; [apply list_lookup_fmap|done]. Qed.

Lemma vec_set_fmap (arr : list A) j x :
  key <$> vec_set arr j x = vec_set (key <$> arr) j (key x).
Proof. unfold vec_set. case_bool_decide; [apply list_fmap_insert|done]. Qed.

(** The keys of the elements move as [bubbleSort] moves integers. *)
Lemma cmp_swap_by_keys (arr : list A) j :
  key <$> cmp_swap_by key arr j = cmp_swap (key <$> arr) j.
Proof.
  unfold cmp_swap_by, cmp_swap. rewrite !vec_get_fmap.
  destruct (vec_get arr j) as [x|]; simpl; [|done].
  destruct (vec_get arr (Int.add j 1)) as [y|]; simpl; [|done].
  case_bool_decide; [|done]. by rewrite !vec_set_fmap.
Qed.

Lemma foldl_cmp_swap_by_keys js (arr : list A) :
  key <$> foldl (cmp_swap_by key) arr js = foldl cmp_swap (key <$> arr) js.
Proof.
  revert arr. induction js as [|j js IH]; intros arr; simpl; [done|].
  by rewrite IH, cmp_swap_by_keys.
Qed.

Lemma inner_loop_by_keys n i (arr : list A) :
  key <$> inner_loop_by key n i arr = inner_loop n i (key <$> arr).
Proof. apply foldl_cmp_swap_by_keys. Qed.

Lemma bubbleSort_by_keys (arr : list A) :
  key <$> bubbleSort_by key arr = bubbleSort (key <$> arr).
Proof.
  unfold bubbleSort_by, bubbleSort, outer_range, size. rewrite length_fmap.
  generalize (Int.to_int (Z.of_nat (length arr))). intros n.
  generalize (int_range (Int.sub n 1)). intros idxs. revert arr.
  induction idxs as [|i idxs IH]; intros arr; simpl; [done|].
  by rewrite IH, inner_loop_by_keys.
Qed.

End KeyedFacts.

(** ** The counters *)

Lemma elem_of_int_range j bound : j ∈ int_range bound ↔ 0 ≤ j < bound.
Proof.
  unfold int_range. rewrite list_elem_of_fmap. split.
  - intros (k & -> & Hk). apply elem_of_seq in Hk. lia.
  - intros Hj. exists (Z.to_nat j). split; [lia|]. apply elem_of_seq. lia.
Qed.

Lemma int_range_of_nat (b : nat) : int_range (Z.of_nat b) = Z.of_nat <$> seq 0 b.
Proof. unfold int_range. by rewrite Nat2Z.id. Qed.

Lemma length_int_range bound : length (int_range bound) = Z.to_nat bound.
Proof. unfold int_range. by rewrite length_fmap, length_seq. Qed.

(** A counter that stays below a bound of type [int] is an [int], and so is
    its successor. *)
Lemma int_range_in_range j bound :
  Int.in_range bound → j ∈ int_range bound → Int.in_range j ∧ Int.add j 1 = j + 1.
Proof.
  intros [_ Hb] Hj%elem_of_int_range. split.
  - unfold Int.in_range, Int.INT_MIN in *. lia.
  - apply IntFacts.add_1. unfold Int.INT_MIN. lia.
Qed.

Lemma inner_bound_in_range n i : Int.in_range (inner_bound n i).
Proof. apply IntFacts.to_int_range. Qed.

Lemma inner_range_in_range n i j :
  j ∈ int_range (inner_bound n i) → Int.in_range j.
Proof. intros Hj. by eapply int_range_in_range; [apply inner_bound_in_range|]. Qed.

(** ** What every comparison preserves is preserved by the sort *)

Section Invariant.
Context {A : Type} (key : A → Z) (Φ : list A → Prop).
Hypothesis step : ∀ a j, Int.in_range j → Φ a → Φ (cmp_swap_by key a j).

Lemma foldl_cmp_swap_by_invariant js a :
  Forall Int.in_range js → Φ a → Φ (foldl (cmp_swap_by key) a js).
Proof.
  intros Hjs. revert a. induction Hjs as [|j js Hj _ IH]; intros a Ha; simpl; [done|].
  apply IH. by apply step.
Qed.

Lemma inner_loop_by_invariant n i a : Φ a → Φ (inner_loop_by key n i a).
Proof.
  apply foldl_cmp_swap_by_invariant. apply list.Forall_forall. apply inner_range_in_range.
Qed.

Lemma foldl_inner_loop_by_invariant n idxs a :
  Φ a → Φ (foldl (λ a i, inner_loop_by key n i a) a idxs).
Proof.
  revert a. induction idxs as [|i idxs IH]; intros a Ha; simpl; [done|].
  apply IH. by apply inner_loop_by_invariant.
Qed.

Lemma bubbleSort_by_invariant arr : Φ arr → Φ (bubbleSort_by key arr).
Proof. apply foldl_inner_loop_by_invariant. Qed.

End Invariant.

(** On integers the key is the element. *)
Lemma cmp_swap_by_id arr j : cmp_swap_by id arr j = cmp_swap arr j.
Proof. reflexivity. Qed.

Lemma inner_loop_by_id n i arr : inner_loop_by id n i arr = inner_loop n i arr.
Proof. reflexivity. Qed.

Lemma bubbleSort_by_id arr : bubbleSort_by id arr = bubbleSort arr.
Proof. reflexivity. Qed.

Lemma bubbleSort_invariant (Φ : list Z → Prop) arr :
  (∀ a j, Int.in_range j → Φ a → Φ (cmp_swap a j)) → Φ arr → Φ (bubbleSort arr).
Proof. intros Hstep. by apply (bubbleSort_by_invariant id Φ). Qed.

Lemma after_passes_invariant (Φ : list Z → Prop) k arr :
  (∀ a j, Int.in_range j → Φ a → Φ (cmp_swap a j)) → Φ arr → Φ (after_passes k arr).
Proof. intros Hstep. by apply (foldl_inner_loop_by_invariant id Φ). Qed.

(** *** The multiset and the length *)

Lemma cmp_swap_by_perm {A} (key : A → Z) arr j :
  Int.in_range j → cmp_swap_by key arr j ≡ₚ arr.
Proof.
  intros Hj. destruct (cmp_swap_by_cases key arr j Hj)
    as [->|(pre & x & y & post & -> & _ & _ & ->)]; [done|].
  apply Permutation_app_head, perm_swap.
Qed.

Lemma bubbleSort_by_perm {A} (key : A → Z) arr : bubbleSort_by key arr ≡ₚ arr.
Proof.
  apply (bubbleSort_by_invariant key (λ a, a ≡ₚ arr)); [|done].
  intros a j Hj Ha. by rewrite cmp_swap_by_perm.
Qed.

Lemma bubbleSort_perm arr : bubbleSort arr ≡ₚ arr.
Proof. apply (bubbleSort_by_perm id). Qed.

Lemma after_passes_perm k arr : after_passes k arr ≡ₚ arr.
Proof.
  apply (after_passes_invariant (λ a, a ≡ₚ arr)); [|done].
  intros a j Hj Ha. by rewrite <- cmp_swap_by_id, cmp_swap_by_perm.
Qed.

Lemma length_bubbleSort arr : length (bubbleSort arr) = length arr.
Proof. apply Permutation_length, bubbleSort_perm. Qed.

(** *** Equal keys keep their order *)

Lemma cmp_swap_by_with_key {A} (key : A → Z) v arr j :
  Int.in_range j → with_key key v (cmp_swap_by key arr j) = with_key key v arr.
Proof.
  intros Hj. destruct (cmp_swap_by_cases key arr j Hj)
    as [->|(pre & x & y & post & -> & _ & Hxy & ->)]; [done|].
  unfold with_key. rewrite !filter_app, !filter_cons.
  repeat case_decide; try done; lia.
Qed.

Lemma inner_loop_by_with_key {A} (key : A → Z) v n i arr :
  with_key key v (inner_loop_by key n i arr) = with_key key v arr.
Proof.
  apply (inner_loop_by_invariant key (λ a, with_key key v a = with_key key v arr)); [|done].
  intros a j Hj Ha. by rewrite cmp_swap_by_with_key.
Qed.

Lemma bubbleSort_by_with_key {A} (key : A → Z) v arr :
  with_key key v (bubbleSort_by key arr) = with_key key v arr.
Proof.
  apply (bubbleSort_by_invariant key (λ a, with_key key v a = with_key key v arr)); [|done].
  intros a j Hj Ha. by rewrite cmp_swap_by_with_key.
Qed.

(** ** Order *)

Lemma StronglySorted_nondecreasing arr : StronglySorted Z.le arr → nondecreasing arr.
Proof.
  induction 1 as [|x l _ IH Hx]; intros i j a b Hij Ha Hb.
  - by rewrite lookup_nil in Ha.
  - destruct j as [|j]; [lia|]. simpl in Hb.
    destruct i as [|i]; simpl in Ha.
    + injection Ha as <-. rewrite list.Forall_forall in Hx. apply Hx.
      by eapply list_elem_of_lookup_2.
    + apply (IH i j); [lia|done..].
Qed.

Lemma nondecreasing_StronglySorted arr : nondecreasing arr → StronglySorted Z.le arr.
Proof.
  induction arr as [|x l IH]; intros Hnd; constructor.
  - apply IH. intros i j a b Hij Ha Hb. apply (Hnd (S i) (S j)); [lia|done..].
  - apply list.Forall_forall. intros y [j Hj]%list_elem_of_lookup_1.
    apply (Hnd 0%nat (S j)); [lia|done..].
Qed.

(** In a vector in order no comparison finds the left neighbour greater. *)
Lemma cmp_swap_nondecreasing arr j :
  Int.in_range j → nondecreasing arr → cmp_swap arr j = arr.
Proof.
  intros Hj Hnd. destruct (cmp_swap_by_cases id arr j Hj)
    as [H|(pre & x & y & post & Harr & _ & Hxy & _)]; [done|].
  exfalso. unfold id in Hxy.
  assert (x ≤ y); [|lia].
  apply (Hnd (length pre) (S (length pre))); [lia|rewrite Harr..].
  - by apply list_lookup_middle.
  - rewrite lookup_app_r by lia.
    by replace (S (length pre) - length pre)%nat with 1%nat by lia.
Qed.

(** ** The passes on the list *)

Lemma length_bubble m x l : length (bubble m x l) = S (length l).
Proof.
  revert x l. induction m as [|m IH]; intros x [|y l]; simpl; try done.
  case_bool_decide; simpl; by rewrite IH.
Qed.

Lemma length_pass b arr : length (pass b arr) = length arr.
Proof. destruct arr as [|x l]; [done|]. apply length_bubble. Qed.

Lemma length_passes b k arr : length (passes b k arr) = length arr.
Proof.
  revert b arr. induction k as [|k IH]; intros b arr; simpl; [done|].
  by rewrite IH, length_pass.
Qed.

Lemma bubble_perm m x l : bubble m x l ≡ₚ x :: l.
Proof.
  revert x l. induction m as [|m IH]; intros x [|y l]; simpl; try done.
  case_bool_decide; rewrite IH; [apply perm_swap|done].
Qed.

Lemma pass_perm b arr : pass b arr ≡ₚ arr.
Proof. destruct arr as [|x l]; [done|]. apply bubble_perm. Qed.

Lemma passes_perm b k arr : passes b k arr ≡ₚ arr.
Proof.
  revert b arr. induction k as [|k IH]; intros b arr; simpl; [done|].
  by rewrite IH, pass_perm.
Qed.

(** A pass does not look beyond its bound. *)
Lemma bubble_app m x l1 l2 :
  (m ≤ length l1)%nat → bubble m x (l1 ++ l2) = bubble m x l1 ++ l2.
Proof.
  revert x l1. induction m as [|m IH]; intros x [|y l1] Hm; simpl in *; try done; try lia.
  case_bool_decide; simpl; rewrite IH by lia; done.
Qed.

Lemma pass_app b l1 l2 :
  (b < length l1)%nat → pass b (l1 ++ l2) = pass b l1 ++ l2.
Proof.
  destruct l1 as [|x l1]; simpl; [lia|]. intros Hb. apply bubble_app. lia.
Qed.

Lemma passes_app b k l1 l2 :
  (b < length l1)%nat → passes b k (l1 ++ l2) = passes b k l1 ++ l2.
Proof.
  revert b l1. induction k as [|k IH]; intros b l1 Hb; simpl; [done|].
  rewrite pass_app by done. apply IH. rewrite length_pass. lia.
Qed.

Lemma passes_plus b k1 k2 arr :
  passes b (k1 + k2) arr = passes (b - k1) k2 (passes b k1 arr).
Proof.
  revert b arr. induction k1 as [|k1 IH]; intros b arr; simpl.
  - by rewrite Nat.sub_0_r.
  - rewrite IH. f_equal. lia.
Qed.

(** A pass over the whole list leaves a greatest element in the last cell. *)
Lemma bubble_full x l :
  ∃ l' mx, bubble (length l) x l = l' ++ [mx] ∧ x ≤ mx ∧ Forall (λ y, y ≤ mx) l'.
Proof.
  revert x. induction l as [|y l IH]; intros x; simpl.
  - exists [], x. split; [done|]. split; [lia|constructor].
  - case_bool_decide as Hxy.
    + destruct (IH x) as (l' & mx & -> & Hx & Hl').
      exists (y :: l'), mx. split; [done|]. split; [done|]. constructor; [lia|done].
    + destruct (IH y) as (l' & mx & -> & Hy & Hl').
      exists (x :: l'), mx. split; [done|]. split; [lia|]. constructor; [lia|done].
Qed.

(** [b] passes with the bounds [b], ..., 1 put a list of [b + 1] elements in
    order. *)
Lemma passes_sorted b arr :
  length arr = S b → StronglySorted Z.le (passes b b arr).
Proof.
  revert arr. induction b as [|b IH]; intros arr Hlen.
  - destruct arr as [|x [|??]]; try discriminate. simpl. repeat constructor.
  - destruct arr as [|x l]; [discriminate|]. injection Hlen as Hlen.
    change (passes (S b) (S b) (x :: l)) with (passes (S b - 1) b (bubble (S b) x l)).
    replace (S b - 1)%nat with b by lia.
    destruct (bubble_full x l) as (l' & mx & Heq & _ & Hl').
    pose proof (length_bubble (length l) x l) as Hlen'.
    rewrite Heq, length_app in Hlen'. simpl in Hlen'.
    rewrite Hlen in Heq. rewrite Heq, passes_app by lia.
    apply StronglySorted_app_2.
    + intros x1 x2 Hx1 ->%list_elem_of_singleton.
      rewrite passes_perm in Hx1. rewrite list.Forall_forall in Hl'. by apply Hl'.
    + apply IH. lia.
    + repeat constructor.
Qed.

(** After [k] passes the cells from [length arr - k] on hold what they hold
    at the end. *)
Lemma passes_suffix_final b k arr :
  length arr = S b → (k ≤ b)%nat →
  drop (length arr - k) (passes b k arr) = drop (length arr - k) (passes b b arr).
Proof.
  intros Hlen Hk.
  replace (passes b b arr) with (passes (b - k) (b - k) (passes b k arr))
    by (rewrite <- passes_plus; f_equal; lia).
  pose proof (length_passes b k arr) as Hlenk.
  generalize dependent (passes b k arr). intros a Ha.
  rewrite <- (take_drop (length arr - k) a) at 2.
  assert (length (take (length arr - k) a) = (length arr - k)%nat) as Htake
    by (rewrite length_take; lia).
  rewrite passes_app by lia.
  rewrite drop_app_length'; [done|]. rewrite length_passes. lia.
Qed.

(** ... and the cells before them hold nothing greater. *)
Lemma passes_suffix_greatest b k arr x y :
  length arr = S b → (k ≤ b)%nat →
  x ∈ take (length arr - k) (passes b k arr) →
  y ∈ drop (length arr - k) (passes b k arr) →
  x ≤ y.
Proof.
  intros Hlen Hk Hx Hy.
  pose proof (passes_sorted b arr Hlen) as Hsorted.
  replace (passes b b arr) with (passes (b - k) (b - k) (passes b k arr)) in Hsorted
    by (rewrite <- passes_plus; f_equal; lia).
  pose proof (length_passes b k arr) as Hlenk.
  generalize dependent (passes b k arr). intros a Hx Hy Hsorted Ha.
  rewrite <- (take_drop (length arr - k) a) in Hsorted.
  assert (length (take (length arr - k) a) = (length arr - k)%nat) as Htake
    by (rewrite length_take; lia).
  rewrite passes_app in Hsorted by lia.
  eapply StronglySorted_app_1_elem_of; [exact Hsorted| |exact Hy].
  by rewrite passes_perm.
Qed.

(** ** The loops and the passes *)

Lemma cmp_swap_middle pre x y post :
  Z.of_nat (length pre) < Int.INT_MAX →
  cmp_swap (pre ++ x :: y :: post) (Z.of_nat (length pre))
  = pre ++ (if bool_decide (x > y) then y :: x :: post else x :: y :: post).
Proof. apply (cmp_swap_by_middle id). Qed.

Lemma foldl_cmp_swap_bubble m pre x l :
  (m ≤ length l)%nat → Z.of_nat (length pre + m) ≤ Int.INT_MAX →
  foldl cmp_swap (pre ++ x :: l) (Z.of_nat <$> seq (length pre) m) = pre ++ bubble m x l.
Proof.
  revert pre x l. induction m as [|m IH]; intros pre x l Hm Hmax; [done|].
  destruct l as [|y l]; simpl in Hm; [lia|].
  cbn [seq fmap list_fmap foldl bubble]. rewrite cmp_swap_middle by lia.
  case_bool_decide.
  - rewrite (cons_middle y pre), app_assoc.
    replace (S (length pre)) with (length (pre ++ [y])) by (rewrite length_app; simpl; lia).
    rewrite IH; [by rewrite <- app_assoc|lia|rewrite length_app; simpl; lia].
  - rewrite (cons_middle x pre), app_assoc.
    replace (S (length pre)) with (length (pre ++ [x])) by (rewrite length_app; simpl; lia).
    rewrite IH; [by rewrite <- app_assoc|lia|rewrite length_app; simpl; lia].
Qed.

Lemma inner_loop_pass n i (b : nat) arr :
  inner_bound n i = Z.of_nat b → (b < length arr)%nat → inner_loop n i arr = pass b arr.
Proof.
  intros Hb Hlen. unfold inner_loop. rewrite Hb, int_range_of_nat.
  destruct arr as [|x l]; simpl in Hlen; [lia|].
  pose proof (inner_bound_in_range n i) as [_ Hmax]. rewrite Hb in Hmax.
  apply (foldl_cmp_swap_bubble b [] x l); simpl; lia.
Qed.

Section Fit.
Context (arr : list Z) (Hfit : size arr ≤ Int.INT_MAX).

Lemma outer_bound_fit : Int.sub (Int.to_int (size arr)) 1 = size arr - 1.
Proof.
  rewrite IntFacts.to_int_size by done. apply IntFacts.to_int_id.
  unfold Int.in_range, Int.INT_MIN, size in *. lia.
Qed.

Lemma outer_range_fit : outer_range arr = Z.of_nat <$> seq 0 (length arr - 1).
Proof.
  unfold outer_range, int_range. rewrite outer_bound_fit. do 2 f_equal. unfold size. lia.
Qed.

Lemma inner_bound_fit (i : nat) :
  (i < length arr - 1)%nat →
  inner_bound (Int.to_int (size arr)) (Z.of_nat i) = Z.of_nat (length arr - 1 - i).
Proof.
  intros Hi. unfold inner_bound, Int.sub. rewrite IntFacts.to_int_size by done.
  unfold size, Int.INT_MAX in *.
  rewrite (IntFacts.to_int_id (Z.of_nat _ - Z.of_nat _)); [rewrite IntFacts.to_int_id|];
    unfold Int.in_range, Int.INT_MIN, Int.INT_MAX; lia.
Qed.

Lemma foldl_inner_loop_passes k s a :
  length a = length arr → (s + k ≤ length arr - 1)%nat →
  foldl (λ a i, inner_loop (Int.to_int (size arr)) i a) a (Z.of_nat <$> seq s k)
  = passes (length arr - 1 - s) k a.
Proof.
  revert s a. induction k as [|k IH]; intros s a Ha Hk; [done|].
  cbn [seq fmap list_fmap foldl passes].
  rewrite (inner_loop_pass _ _ (length arr - 1 - s)) by (rewrite ?inner_bound_fit; lia).
  rewrite IH by (rewrite ?length_pass; lia). f_equal. lia.
Qed.

Lemma after_passes_passes k :
  (k ≤ length arr - 1)%nat → after_passes k arr = passes (length arr - 1) k arr.
Proof.
  intros Hk. unfold after_passes. rewrite outer_range_fit, <- fmap_take, take_seq.
  rewrite Nat.min_l by done.
  rewrite foldl_inner_loop_passes by (done || lia). f_equal. lia.
Qed.

Lemma bubbleSort_passes : bubbleSort arr = passes (length arr - 1) (length arr - 1) arr.
Proof.
  unfold bubbleSort. rewrite outer_range_fit.
  rewrite foldl_inner_loop_passes by (done || lia). f_equal. lia.
Qed.

End Fit.

(** ** No cell outside the vector is named

    For every value of [i] and [j] the loops reach, [j] and [j + 1] are
    indices of the vector, and [j + 1] does not wrap. *)
Lemma loops_in_bounds (arr : list Z) i j :
  i ∈ outer_range arr → j ∈ int_range (inner_bound (Int.to_int (size arr)) i) →
  0 ≤ j ∧ Int.add j 1 = j + 1 ∧ j + 1 < size arr.
Proof.
  intros Hi%elem_of_int_range Hj.
  pose proof (int_range_in_range j _ (inner_bound_in_range _ _) Hj) as [_ Hadd].
  apply elem_of_int_range in Hj. split; [lia|]. split; [done|].
  revert Hi Hj. unfold inner_bound, Int.sub, Int.to_int, size.
  generalize (Z.of_nat (length arr)) (Nat2Z.is_nonneg (length arr)). clear.
  intros z Hz Hi Hj. Z.div_mod_to_equations. lia.
Qed.

Lemma cells_in_bounds (arr a : list Z) i j :
  length a = length arr →
  i ∈ outer_range arr → j ∈ int_range (inner_bound (Int.to_int (size arr)) i) →
  is_Some (vec_get a j) ∧ is_Some (vec_get a (Int.add j 1)).
Proof.
  intros Ha Hi Hj. destruct (loops_in_bounds arr i j Hi Hj) as (Hj0 & -> & Hj1).
  unfold vec_get, size in *. rewrite !bool_decide_eq_true_2 by lia.
  split; apply lookup_lt_is_Some; lia.
Qed.

(** ** The loops as written reach the end *)

Lemma inner_run_foldl fuel n i (j : nat) arr :
  (Z.to_nat (inner_bound n i) - j < fuel)%nat →
  inner_run fuel n i (Z.of_nat j) arr
  = Some (foldl cmp_swap arr (Z.of_nat <$> seq j (Z.to_nat (inner_bound n i) - j))).
Proof.
  pose proof (inner_bound_in_range n i) as [_ Hmax].
  revert j arr. induction fuel as [|fuel IH]; intros j arr Hfuel; [lia|].
  simpl. case_bool_decide as Hj.
  - rewrite add_1_of_nat by lia. rewrite IH by lia.
    replace (Z.to_nat (inner_bound n i) - j)%nat
      with (S (Z.to_nat (inner_bound n i) - S j)) by lia.
    done.
  - by replace (Z.to_nat (inner_bound n i) - j)%nat with 0%nat by lia.
Qed.

Lemma inner_run_inner_loop fuel n i arr :
  (Z.to_nat (inner_bound n i) < fuel)%nat →
  inner_run fuel n i 0 arr = Some (inner_loop n i arr).
Proof.
  intros Hfuel. rewrite (inner_run_foldl fuel n i 0) by lia.
  by rewrite Nat.sub_0_r.
Qed.

Lemma outer_run_foldl fuel inner_fuel n (i : nat) arr :
  (∀ i', 0 ≤ i' < Int.sub n 1 → (Z.to_nat (inner_bound n i') < inner_fuel)%nat) →
  (Z.to_nat (Int.sub n 1) - i < fuel)%nat →
  outer_run fuel inner_fuel n (Z.of_nat i) arr
  = Some (foldl (λ a i, inner_loop n i a) arr
            (Z.of_nat <$> seq i (Z.to_nat (Int.sub n 1) - i))).
Proof.
  intros Hinner. pose proof (IntFacts.to_int_range (n - 1)) as [_ Hmax].
  fold (Int.sub n 1) in Hmax.
  revert i arr. induction fuel as [|fuel IH]; intros i arr Hfuel; [lia|].
  simpl. case_bool_decide as Hi.
  - rewrite inner_run_inner_loop by (apply Hinner; lia).
    rewrite add_1_of_nat by lia. rewrite IH by lia.
    replace (Z.to_nat (Int.sub n 1) - i)%nat
      with (S (Z.to_nat (Int.sub n 1) - S i)) by lia.
    done.
  - by replace (Z.to_nat (Int.sub n 1) - i)%nat with 0%nat by lia.
Qed.

(** Fuel for [2^31] iterations of a loop is enough for every vector. *)
Lemma bubbleSort_run_enough fuel arr :
  2 ^ 31 ≤ Z.of_nat fuel → bubbleSort_run fuel arr = Some (bubbleSort arr).
Proof.
  intros Hfuel. unfold bubbleSort_run, bubbleSort, outer_range, int_range.
  rewrite (outer_run_foldl fuel fuel _ 0); [by rewrite Nat.sub_0_r| |].
  - intros i' _. pose proof (inner_bound_in_range (Int.to_int (size arr)) i') as [_ H].
    unfold Int.INT_MAX in H. lia.
  - pose proof (IntFacts.to_int_range (Int.to_int (size arr) - 1)) as [_ H].
    unfold Int.INT_MAX in H. unfold Int.sub. lia.
Qed.

(** For a vector whose size fits [int], fuel for as many iterations as it has
    elements is enough. *)
Lemma bubbleSort_run_fit fuel arr :
  size arr ≤ Int.INT_MAX → (0 < fuel)%nat → (length arr ≤ fuel)%nat →
  bubbleSort_run fuel arr = Some (bubbleSort arr).
Proof.
  intros Hfit Hpos Hfuel. unfold bubbleSort_run, bubbleSort, outer_range, int_range.
  pose proof (outer_bound_fit arr Hfit) as Hb.
  rewrite (outer_run_foldl fuel fuel _ 0); [by rewrite Nat.sub_0_r| |].
  - intros i' Hi'. rewrite Hb in Hi'. unfold size in Hi'.
    rewrite <- (Z2Nat.id i') by lia.
    rewrite inner_bound_fit by (done || lia). lia.
  - rewrite Hb. unfold size. lia.
Qed.

(** ** The printer *)

Lemma string_app_assoc (s1 s2 s3 : string) : (s1 +:+ s2) +:+ s3 = s1 +:+ s2 +:+ s3.
Proof.
  induction s1 as [|a s1 IH]; [done|].
  change (String a ((s1 +:+ s2) +:+ s3) = String a (s1 +:+ s2 +:+ s3)). by f_equal.
Qed.

Lemma string_app_nil_r (s : string) : s +:+ "" = s.
Proof.
  induction s as [|a s IH]; [done|].
  change (String a (s +:+ "") = String a s). by f_equal.
Qed.

Lemma foldl_print out arr : foldl print_num out arr = out +:+ foldl print_num "" arr.
Proof.
  revert out. induction arr as [|x l IH]; intros out; simpl.
  - by rewrite string_app_nil_r.
  - rewrite IH. rewrite (IH (print_num "" x)). unfold print_num.
    by rewrite !string_app_assoc.
Qed.

Lemma foldl_print_cons x l :
  foldl print_num "" (x :: l) = String.concat " " (pretty <$> x :: l) +:+ " ".
Proof.
  revert x. induction l as [|y l IH]; intros x; [done|].
  change (foldl print_num "" (x :: y :: l))
    with (foldl print_num (pretty x +:+ " ") (y :: l)).
  rewrite foldl_print, IH.
  change (String.concat " " (pretty <$> x :: y :: l))
    with (pretty x +:+ " " +:+ String.concat " " (pretty <$> y :: l)).
  by rewrite !string_app_assoc.
Qed.

(** ** Vectors beyond the range of [int]

    The size [2^32 + 1] converts to the [int] 1. *)

Lemma to_int_wrapped : Int.to_int (2 ^ 32 + 1) = 1.
Proof. reflexivity. Qed.

Lemma outer_range_wrapped (N : nat) (arr : list Z) :
  Z.of_nat N = 2 ^ 32 → length arr = S N → outer_range arr = [].
Proof.
  intros HN Hlen. unfold outer_range, size. rewrite Hlen, Nat2Z.inj_succ, HN.
  change (Z.succ (2 ^ 32)) with (2 ^ 32 + 1). by rewrite to_int_wrapped.
Qed.

Lemma length_wrapped (N : nat) : length (ones_then_zero N) = S N.
Proof. unfold ones_then_zero. rewrite length_app, length_replicate. simpl. lia. Qed.

Lemma bubbleSort_wrapped (N : nat) :
  Z.of_nat N = 2 ^ 32 → bubbleSort (ones_then_zero N) = ones_then_zero N.
Proof.
  intros HN. unfold bubbleSort.
  by rewrite (outer_range_wrapped N _ HN (length_wrapped N)).
Qed.

Lemma unsorted_wrapped (N : nat) :
  Z.of_nat N = 2 ^ 32 → ¬ nondecreasing (bubbleSort (ones_then_zero N)).
Proof.
  intros HN Hnd. rewrite (bubbleSort_wrapped N HN) in Hnd.
  assert (1 ≤ 0); [|lia].
  apply (Hnd 0%nat N); [lia|unfold ones_then_zero..].
  - rewrite lookup_app_l by (rewrite length_replicate; lia).
    apply lookup_replicate_2. lia.
  - apply list_lookup_middle. by rewrite length_replicate.
Qed.

Lemma passes_wrapped (N : nat) :
  Z.of_nat N = 2 ^ 32 →
  length (outer_range (ones_then_zero N)) ≠ (length (ones_then_zero N) - 1)%nat.
Proof.
  intros HN. rewrite (outer_range_wrapped N _ HN (length_wrapped N)), length_wrapped.
  simpl. lia.
Qed.

Lemma two_pow_32_nat : Z.of_nat (Z.to_nat (2 ^ 32)) = 2 ^ 32.
Proof. apply Z2Nat.id. lia. Qed.

(** ** The sorted result, for a size that fits [int] *)

Lemma bubbleSort_sorted_fit arr :
  size arr ≤ Int.INT_MAX → StronglySorted Z.le (bubbleSort arr).
Proof.
  intros Hfit. rewrite bubbleSort_passes by done.
  destruct arr as [|x l]; [constructor|].
  apply passes_sorted. simpl. lia.
Qed.

Lemma main_arr_fit : size main_arr ≤ Int.INT_MAX.
Proof. vm_compute. discriminate. Qed.

(** * The claims *)

(** C1, amended.  For every vector whose size fits the [int] counter [n] (at
    most [2^31 - 1] elements), after [bubbleSort] the vector is in
    non-decreasing order: for every pair of valid indices [i < j],
    [arr[i] <= arr[j]]. *)
Theorem bubbleSort_nondecreasing arr :
  size arr ≤ Int.INT_MAX → nondecreasing (bubbleSort arr).
Proof. intros Hfit. by apply StronglySorted_nondecreasing, bubbleSort_sorted_fit. Qed.

Lemma bubbleSort_nondecreasing_witness :
  size main_arr ≤ Int.INT_MAX ∧ nondecreasing (bubbleSort main_arr).
Proof.
  split; [vm_compute; discriminate|].
  apply (bubbleSort_nondecreasing main_arr). vm_compute. discriminate.
Defined.

(** C1 as stated fails: a vector of [2^32 + 1] elements, all 1 but the last,
    which is 0.  Its size converts to [n = 1], no pass is run, and the 1 in
    the first cell stays before the 0 in the last. *)
Lemma bubbleSort_unsorted_beyond_int :
  ¬ nondecreasing (bubbleSort (ones_then_zero (Z.to_nat (2 ^ 32)))).
Proof. apply unsorted_wrapped, two_pow_32_nat. Qed.

(** C2.  For every vector, the multiset of the values it holds after
    [bubbleSort] is the multiset of the values it held before: the result is
    a permutation of the input, of the same length. *)
Theorem bubbleSort_multiset arr :
  list_to_set_disj (bubbleSort arr) =@{gmultiset Z} list_to_set_disj arr ∧
  bubbleSort arr ≡ₚ arr ∧
  length (bubbleSort arr) = length arr.
Proof.
  split; [|split].
  - by rewrite bubbleSort_perm.
  - apply bubbleSort_perm.
  - apply length_bubbleSort.
Qed.

(** C3.  On the literal of [main], [64, 34, 25, 12, 22, 11, 90], [bubbleSort]
    yields exactly [11, 12, 22, 25, 34, 64, 90]; the loops as written reach
    that result, and it is what [main] prints on its second line. *)
Theorem bubbleSort_main_arr :
  main_arr = [64; 34; 25; 12; 22; 11; 90] ∧
  bubbleSort main_arr = [11; 12; 22; 25; 34; 64; 90] ∧
  bubbleSort_run 7 main_arr = Some [11; 12; 22; 25; 34; 64; 90] ∧
  main 7 = Some ("排序前的数组: 64 34 25 12 22 11 90 " +:+ endl
                 +:+ "排序后的数组: 11 12 22 25 34 64 90 " +:+ endl, 0).
Proof. split; [reflexivity|]. repeat split; vm_compute; reflexivity. Qed.

(** C4, amended.  For every vector of length [n] whose size fits [int], the
    outer loop performs exactly [n - 1] passes (none when [n = 0]); pass [k]
    (0-indexed) runs the inner loop with the bound [n - k - 1], one less for
    each subsequent pass; and after pass [k] the last [k + 1] cells hold what
    they hold in the sorted result, nothing before them being greater. *)
Theorem bubbleSort_passes_settle arr :
  size arr ≤ Int.INT_MAX →
  length (outer_range arr) = (length arr - 1)%nat ∧
  (∀ k : nat, (k < length arr - 1)%nat →
     outer_range arr !! k = Some (Z.of_nat k) ∧
     inner_bound (Int.to_int (size arr)) (Z.of_nat k) = size arr - Z.of_nat k - 1 ∧
     length (drop (length arr - S k) (after_passes (S k) arr)) = S k ∧
     drop (length arr - S k) (after_passes (S k) arr)
       = drop (length arr - S k) (bubbleSort arr) ∧
     (∀ x y, x ∈ take (length arr - S k) (after_passes (S k) arr) →
             y ∈ drop (length arr - S k) (after_passes (S k) arr) → x ≤ y)) ∧
  (∀ k : nat, (S k < length arr - 1)%nat →
     inner_bound (Int.to_int (size arr)) (Z.of_nat (S k))
     = inner_bound (Int.to_int (size arr)) (Z.of_nat k) - 1) ∧
  nondecreasing (bubbleSort arr).
Proof.
  intros Hfit. split; [|split; [|split]].
  - by rewrite outer_range_fit, length_fmap, length_seq.
  - intros k Hk.
    assert (length arr = S (length arr - 1)) as Hlen by lia.
    rewrite after_passes_passes, bubbleSort_passes by (done || lia).
    split; [|split; [|split; [|split]]].
    + rewrite outer_range_fit, list_lookup_fmap, lookup_seq_lt by done. done.
    + rewrite inner_bound_fit by done. unfold size. lia.
    + rewrite length_drop, length_passes. lia.
    + apply passes_suffix_final; [done|lia].
    + intros x y. apply passes_suffix_greatest; [done|lia].
  - intros k Hk. rewrite !inner_bound_fit by (done || lia). lia.
  - by apply StronglySorted_nondecreasing, bubbleSort_sorted_fit.
Qed.

Lemma bubbleSort_passes_settle_witness :
  size main_arr ≤ Int.INT_MAX ∧
  length (outer_range main_arr) = 6%nat ∧
  after_passes 1 main_arr = [34; 25; 12; 22; 11; 64; 90] ∧
  drop 6 (after_passes 1 main_arr) = drop 6 (bubbleSort main_arr).
Proof.
  split; [vm_compute; discriminate|].
  destruct (bubbleSort_passes_settle main_arr) as (Hn & Hk & _);
    [vm_compute; discriminate|].
  split; [exact Hn|]. split; [vm_compute; reflexivity|].
  destruct (Hk 0%nat) as (_ & _ & _ & Hfinal & _); [vm_compute; lia|].
  exact Hfinal.
Defined.

(** C4 as stated fails on the vector of [2^32 + 1] elements: its size
    converts to [n = 1] and the outer loop performs no pass, not [2^32]. *)
Lemma bubbleSort_passes_beyond_int :
  length (outer_range (ones_then_zero (Z.to_nat (2 ^ 32))))
  ≠ (length (ones_then_zero (Z.to_nat (2 ^ 32))) - 1)%nat.
Proof. apply passes_wrapped, two_pow_32_nat. Qed.

(** C5, amended.  The text [printArray] adds to the output is the elements in
    order, each followed by a single space, and then the line terminator: the
    elements are separated by single spaces and one more space stands between
    the last element and the line terminator.  For the empty vector it is the
    line terminator alone. *)
Theorem printArray_trailing_space out arr :
  printArray out arr
  = out +:+ match arr with
            | [] => endl
            | _ :: _ => String.concat " " (pretty <$> arr) +:+ " " +:+ endl
            end.
Proof.
  unfold printArray. rewrite foldl_print, string_app_assoc. f_equal.
  destruct arr as [|x l]; [done|].
  by rewrite foldl_print_cons, string_app_assoc.
Qed.

(** C5 as stated fails: for [1, 2] the printer writes "1 2 " and the line
    terminator, not "1 2" and the line terminator. *)
Lemma printArray_not_separated : printArray "" [1; 2] ≠ print_separated [1; 2].
Proof. vm_compute. discriminate. Qed.

(** C6.  For every vector that is already in non-decreasing order,
    [bubbleSort] yields the identical vector. *)
Theorem bubbleSort_sorted_unchanged arr : nondecreasing arr → bubbleSort arr = arr.
Proof.
  intros Hnd. apply (bubbleSort_invariant (λ a, a = arr)); [|done].
  intros a j Hj ->. by apply cmp_swap_nondecreasing.
Qed.

Lemma bubbleSort_sorted_unchanged_witness :
  nondecreasing [1; 2; 2; 5] ∧ bubbleSort [1; 2; 2; 5] = [1; 2; 2; 5].
Proof.
  assert (nondecreasing [1; 2; 2; 5]) as Hnd.
  { apply StronglySorted_nondecreasing. repeat constructor; lia. }
  split; [exact Hnd|]. exact (bubbleSort_sorted_unchanged [1; 2; 2; 5] Hnd).
Defined.

(** C7.  [bubbleSort] on the empty vector yields the empty vector, and on a
    one-element vector that same element; in both cases the outer loop runs
    no pass, so no cell is compared or written. *)
Theorem bubbleSort_empty_singleton :
  bubbleSort [] = [] ∧ outer_range [] = [] ∧ bubbleSort_run 1 [] = Some [] ∧
  ∀ x, bubbleSort [x] = [x] ∧ outer_range [x] = [] ∧ bubbleSort_run 1 [x] = Some [x].
Proof. repeat split. Qed.

(** C8.  [bubbleSort] on [5, 3, 5, 1] yields exactly [1, 3, 5, 5]: both
    copies of 5 are in the result (tagged by the cell they came from, the
    copy from cell 0 and the copy from cell 2). *)
Theorem bubbleSort_duplicates :
  bubbleSort [5; 3; 5; 1] = [1; 3; 5; 5] ∧
  bubbleSort_by fst [(5, 0%nat); (3, 1%nat); (5, 2%nat); (1, 3%nat)]
  = [(1, 3%nat); (3, 1%nat); (5, 0%nat); (5, 2%nat)].
Proof. split; vm_compute; reflexivity. Qed.

(** C9.  For every vector the two loops of [bubbleSort], run as written, come
    to an end with the sorter's result (any sufficient fuel gives it), and
    [main] ends with exit status 0, the only status it returns. *)
Theorem bubbleSort_terminates :
  (∀ arr, ∃ fuel, ∀ fuel', (fuel ≤ fuel')%nat →
     bubbleSort_run fuel' arr = Some (bubbleSort arr)) ∧
  (∃ fuel out, main fuel = Some (out, 0)) ∧
  (∀ fuel out status, main fuel = Some (out, status) → status = 0).
Proof.
  split; [|split].
  - intros arr. exists (Z.to_nat (2 ^ 31)). intros fuel' Hfuel.
    apply bubbleSort_run_enough. lia.
  - exists 7%nat. unfold main.
    rewrite (bubbleSort_run_fit 7 main_arr) by (apply main_arr_fit || (simpl; lia)).
    eauto.
  - intros fuel out status. unfold main.
    destruct (bubbleSort_run fuel main_arr); [|discriminate].
    by intros [= _ <-].
Qed.

(** C10.  A comparison exchanges two neighbours only when the left one is
    strictly greater; equal neighbours are never exchanged.  So every pass,
    and the whole sort, keeps the elements of equal key in the order they
    stood in: the sort is stable. *)
Theorem bubbleSort_stable :
  (∀ arr j, cmp_swap arr j = arr ∨
     ∃ x y, vec_get arr j = Some x ∧ vec_get arr (Int.add j 1) = Some y ∧ x > y) ∧
  (∀ arr j x, vec_get arr j = Some x → vec_get arr (Int.add j 1) = Some x →
     cmp_swap arr j = arr) ∧
  (∀ (A : Type) (key : A → Z) (n i : Z) (arr : list A) (v : Z),
     with_key key v (inner_loop_by key n i arr) = with_key key v arr) ∧
  (∀ (A : Type) (key : A → Z) (arr : list A) (v : Z),
     with_key key v (bubbleSort_by key arr) = with_key key v arr) ∧
  (∀ (A : Type) (key : A → Z) (arr : list A),
     key <$> bubbleSort_by key arr = bubbleSort (key <$> arr)).
Proof.
  split; [|split; [|split; [|split]]].
  - intros arr j. unfold cmp_swap.
    destruct (vec_get arr j) as [x|]; [|by left].
    destruct (vec_get arr (Int.add j 1)) as [y|]; [|by left].
    case_bool_decide; [right; eauto|by left].
  - intros arr j x Hx Hy. unfold cmp_swap. rewrite Hx, Hy.
    rewrite bool_decide_eq_false_2 by lia. done.
  - intros A key n i arr v. apply inner_loop_by_with_key.
  - intros A key arr v. apply bubbleSort_by_with_key.
  - intros A key arr. apply bubbleSort_by_keys.
Qed.

(** * Further properties of the code *)

(** ** The loops at every size

    Whatever the size converts to, the outer loop counts some [p] passes,
    pass [i] has the bound [p - i], and [p + 1] cells are in the vector. *)

Lemma outer_range_seq arr :
  outer_range arr = Z.of_nat <$> seq 0 (length (outer_range arr)).
Proof. unfold outer_range. by rewrite length_int_range. Qed.

Lemma outer_passes_lt arr :
  length (outer_range arr) ≠ 0%nat → (length (outer_range arr) < length arr)%nat.
Proof.
  unfold outer_range. rewrite length_int_range.
  unfold Int.sub, Int.to_int, size.
  generalize (length arr). intros len Hp. Z.div_mod_to_equations. lia.
Qed.

Lemma inner_bound_passes arr (i : nat) :
  (i < length (outer_range arr))%nat →
  inner_bound (Int.to_int (size arr)) (Z.of_nat i)
  = Z.of_nat (length (outer_range arr) - i).
Proof.
  unfold outer_range. rewrite length_int_range.
  unfold inner_bound, Int.sub, Int.to_int, size.
  generalize (length arr). intros len Hi. Z.div_mod_to_equations. lia.
Qed.

Lemma foldl_inner_loop_passes_all arr k s a :
  length a = length arr → (s + k ≤ length (outer_range arr))%nat →
  foldl (λ a i, inner_loop (Int.to_int (size arr)) i a) a (Z.of_nat <$> seq s k)
  = passes (length (outer_range arr) - s) k a.
Proof.
  revert s a. induction k as [|k IH]; intros s a Ha Hk; [done|].
  cbn [seq fmap list_fmap foldl passes].
  assert (length (outer_range arr) ≠ 0%nat) as Hp by lia.
  apply outer_passes_lt in Hp.
  rewrite (inner_loop_pass _ _ (length (outer_range arr) - s))
    by (rewrite ?inner_bound_passes; lia).
  rewrite IH by (rewrite ?length_pass; lia). f_equal. lia.
Qed.

Lemma bubbleSort_passes_all arr :
  bubbleSort arr = passes (length (outer_range arr)) (length (outer_range arr)) arr.
Proof.
  unfold bubbleSort. rewrite outer_range_seq at 1.
  rewrite foldl_inner_loop_passes_all by (done || lia). f_equal. lia.
Qed.

Lemma outer_range_length_eq arr arr' :
  length arr = length arr' → outer_range arr = outer_range arr'.
Proof. intros H. unfold outer_range, size. by rewrite H. Qed.

(** A pass over cells in order changes nothing. *)
Lemma bubble_sorted m x l : StronglySorted Z.le (x :: l) → bubble m x l = x :: l.
Proof.
  revert x l. induction m as [|m IH]; intros x [|y l] Hs; simpl; try done.
  apply StronglySorted_cons in Hs as [Hx Hs].
  rewrite bool_decide_eq_false_2 by (apply Forall_cons in Hx as [? _]; lia).
  by rewrite IH.
Qed.

Lemma passes_sorted_id b k l : StronglySorted Z.le l → passes b k l = l.
Proof.
  revert b. induction k as [|k IH]; intros b Hs; simpl; [done|].
  destruct l as [|x l]; simpl; [by apply IH|].
  rewrite bubble_sorted by done. by apply IH.
Qed.

(** The vector splits into the cells the passes work on and the cells beyond
    them. *)
Lemma bubbleSort_split arr :
  let m := S (length (outer_range arr)) in
  bubbleSort arr
  = passes (length (outer_range arr)) (length (outer_range arr)) (take m arr) ++ drop m arr.
Proof.
  cbv zeta. rewrite bubbleSort_passes_all.
  pose proof (outer_passes_lt arr) as Hlt.
  remember (length (outer_range arr)) as p eqn:Hp. clear Hp.
  destruct (decide (p = 0%nat)) as [->|Hp].
  - simpl. by rewrite take_drop.
  - rewrite <- (take_drop (S p) arr) at 1. apply passes_app.
    rewrite length_take. lia.
Qed.

Lemma bubbleSort_split_sorted arr :
  StronglySorted Z.le
    (passes (length (outer_range arr)) (length (outer_range arr))
       (take (S (length (outer_range arr))) arr)).
Proof.
  destruct (decide (length (outer_range arr) = 0%nat)) as [Hp|Hp].
  - rewrite Hp. simpl. destruct arr as [|x l]; simpl; [constructor|].
    rewrite take_0. repeat constructor.
  - apply outer_passes_lt in Hp. apply passes_sorted.
    rewrite length_take. lia.
Qed.

Lemma length_take_passes arr :
  length (passes (length (outer_range arr)) (length (outer_range arr))
            (take (S (length (outer_range arr))) arr))
  = (S (length (outer_range arr)) `min` length arr)%nat.
Proof. by rewrite length_passes, length_take. Qed.

Lemma take_bubbleSort arr :
  take (S (length (outer_range arr))) (bubbleSort arr)
  = passes (length (outer_range arr)) (length (outer_range arr))
      (take (S (length (outer_range arr))) arr).
Proof.
  rewrite (bubbleSort_split arr) at 1. cbv zeta.
  pose proof (length_take_passes arr) as Hlen.
  destruct (decide (S (length (outer_range arr)) ≤ length arr)%nat) as [Hle|Hgt].
  - apply take_app_length'. lia.
  - rewrite (drop_ge arr) by lia. rewrite app_nil_r. apply take_ge. lia.
Qed.

Lemma drop_bubbleSort arr :
  drop (S (length (outer_range arr))) (bubbleSort arr)
  = drop (S (length (outer_range arr))) arr.
Proof.
  rewrite (bubbleSort_split arr) at 1. cbv zeta.
  pose proof (length_take_passes arr) as Hlen.
  destruct (decide (S (length (outer_range arr)) ≤ length arr)%nat) as [Hle|Hgt].
  - apply drop_app_length'. lia.
  - rewrite (drop_ge arr) by lia. rewrite app_nil_r. apply drop_ge. lia.
Qed.

Lemma bubbleSort_twice arr : bubbleSort (bubbleSort arr) = bubbleSort arr.
Proof.
  rewrite (bubbleSort_split (bubbleSort arr)). cbv zeta.
  rewrite (outer_range_length_eq (bubbleSort arr) arr) by apply length_bubbleSort.
  rewrite take_bubbleSort, drop_bubbleSort.
  rewrite passes_sorted_id by apply bubbleSort_split_sorted.
  symmetry. apply bubbleSort_split.
Qed.

Lemma length_outer_range_fit arr :
  size arr ≤ Int.INT_MAX → length (outer_range arr) = (length arr - 1)%nat.
Proof. intros Hfit. by rewrite outer_range_fit, length_fmap, length_seq. Qed.

(** ** A fold keeps what each of its steps keeps *)

Lemma foldl_invariant {S B} (f : S → B → S) (Q : B → Prop) (Φ : S → Prop) bs s :
  (∀ s b, Q b → Φ s → Φ (f s b)) → Forall Q bs → Φ s → Φ (foldl f s bs).
Proof.
  intros Hstep Hbs. revert s. induction Hbs as [|b bs Hb _ IH]; intros s Hs; simpl; [done|].
  apply IH. by apply Hstep.
Qed.

Lemma length_cmp_swap arr j : Int.in_range j → length (cmp_swap arr j) = length arr.
Proof. intros Hj. apply Permutation_length, (cmp_swap_by_perm id arr j Hj). Qed.

Lemma length_inner_loop n i arr : length (inner_loop n i arr) = length arr.
Proof.
  apply (inner_loop_by_invariant id (λ a, length a = length arr)); [|done].
  intros a j Hj <-. by apply length_cmp_swap.
Qed.

(** ** The checked loops never fail *)

Lemma cmp_swap_checked_Some a j :
  is_Some (vec_get a j) → is_Some (vec_get a (Int.add j 1)) →
  cmp_swap_checked a j = Some (cmp_swap a j).
Proof.
  intros [x Hx] [y Hy]. unfold cmp_swap_checked, cmp_swap. rewrite Hx, Hy. simpl.
  by case_bool_decide.
Qed.

Lemma foldl_cmp_swap_checked_Some arr js a i :
  length a = length arr → i ∈ outer_range arr →
  Forall (λ j, j ∈ int_range (inner_bound (Int.to_int (size arr)) i)) js →
  foldl (λ a j, a ≫= λ a, cmp_swap_checked a j) (Some a) js = Some (foldl cmp_swap a js).
Proof.
  intros Ha Hi Hjs. revert a Ha.
  induction Hjs as [|j js Hj _ IH]; intros a Ha; simpl; [done|].
  destruct (cells_in_bounds arr a i j Ha Hi Hj) as [Hx Hy].
  rewrite cmp_swap_checked_Some by done. apply IH.
  rewrite length_cmp_swap; [done|]. by eapply inner_range_in_range.
Qed.

Lemma inner_loop_checked_Some arr a i :
  length a = length arr → i ∈ outer_range arr →
  inner_loop_checked (Int.to_int (size arr)) i a
  = Some (inner_loop (Int.to_int (size arr)) i a).
Proof.
  intros Ha Hi. apply (foldl_cmp_swap_checked_Some arr _ a i); [done..|].
  by apply list.Forall_forall.
Qed.

Lemma foldl_inner_loop_checked_Some arr idxs a :
  length a = length arr → Forall (λ i, i ∈ outer_range arr) idxs →
  foldl (λ a i, a ≫= inner_loop_checked (Int.to_int (size arr)) i) (Some a) idxs
  = Some (foldl (λ a i, inner_loop (Int.to_int (size arr)) i a) a idxs).
Proof.
  intros Ha His. revert a Ha.
  induction His as [|i idxs Hi _ IH]; intros a Ha; simpl; [done|].
  rewrite inner_loop_checked_Some by done. apply IH.
  by rewrite length_inner_loop.
Qed.

Lemma bubbleSort_checked_Some arr : bubbleSort_checked arr = Some (bubbleSort arr).
Proof.
  apply (foldl_inner_loop_checked_Some arr); [done|]. by apply list.Forall_forall.
Qed.

(** ** The counters *)

Lemma cells_cmp_swap_count t j : cells (cmp_swap_count t j) = cmp_swap (cells t) j.
Proof.
  unfold cmp_swap_count, cmp_swap.
  destruct (vec_get (cells t) j) as [x|]; [|done].
  destruct (vec_get (cells t) (Int.add j 1)) as [y|]; [|done].
  by case_bool_decide.
Qed.

Lemma comparisons_cmp_swap_count t j :
  comparisons (cmp_swap_count t j) = S (comparisons t).
Proof.
  unfold cmp_swap_count.
  destruct (vec_get (cells t) j) as [x|]; [|done].
  destruct (vec_get (cells t) (Int.add j 1)) as [y|]; [|done].
  by case_bool_decide.
Qed.

Lemma cells_foldl_cmp_swap_count js t :
  cells (foldl cmp_swap_count t js) = foldl cmp_swap (cells t) js.
Proof.
  revert t. induction js as [|j js IH]; intros t; simpl; [done|].
  by rewrite IH, cells_cmp_swap_count.
Qed.

Lemma comparisons_foldl_cmp_swap_count js t :
  comparisons (foldl cmp_swap_count t js) = (comparisons t + length js)%nat.
Proof.
  revert t. induction js as [|j js IH]; intros t; simpl; [lia|].
  rewrite IH, comparisons_cmp_swap_count. lia.
Qed.

Lemma cells_inner_loop_count n i t :
  cells (inner_loop_count n i t) = inner_loop n i (cells t).
Proof. apply cells_foldl_cmp_swap_count. Qed.

Lemma cells_foldl_inner_loop_count n idxs t :
  cells (foldl (λ t i, inner_loop_count n i t) t idxs)
  = foldl (λ a i, inner_loop n i a) (cells t) idxs.
Proof.
  revert t. induction idxs as [|i idxs IH]; intros t; simpl; [done|].
  by rewrite IH, cells_inner_loop_count.
Qed.

(** The counters do not change what the loops do to the vector. *)
Lemma cells_bubbleSort_count arr : cells (bubbleSort_count arr) = bubbleSort arr.
Proof. apply cells_foldl_inner_loop_count. Qed.

(** From pass [s] to the last one the test is evaluated [k (k + 1) / 2]
    times, [k] being the number of these passes. *)
Lemma comparisons_foldl_inner_loop_count arr k s t :
  (s + k = length (outer_range arr))%nat →
  (2 * comparisons (foldl (λ t i, inner_loop_count (Int.to_int (size arr)) i t) t
                      (Z.of_nat <$> seq s k))
   = 2 * comparisons t + k * (k + 1))%nat.
Proof.
  revert s t. induction k as [|k IH]; intros s t Hk; [simpl; lia|].
  cbn [seq fmap list_fmap foldl]. rewrite IH by lia.
  unfold inner_loop_count. rewrite comparisons_foldl_cmp_swap_count, length_int_range.
  rewrite inner_bound_passes by lia. rewrite Nat2Z.id. nia.
Qed.

Lemma comparisons_bubbleSort_count arr :
  (2 * comparisons (bubbleSort_count arr)
   = length (outer_range arr) * (length (outer_range arr) + 1))%nat.
Proof.
  unfold bubbleSort_count. rewrite outer_range_seq at 1.
  rewrite (comparisons_foldl_inner_loop_count arr) by lia. simpl. lia.
Qed.

(** ** Swaps and inversions *)

(** The two cells a comparison reads are neighbours in the vector. *)
Lemma vec_get_neighbours {A} (arr : list A) j x y :
  Int.in_range j → vec_get arr j = Some x → vec_get arr (Int.add j 1) = Some y →
  ∃ pre post,
    arr = pre ++ x :: y :: post ∧ j = Z.of_nat (length pre) ∧
    Z.of_nat (length pre) < Int.INT_MAX.
Proof.
  intros [Hlo Hhi] Hx Hy.
  destruct (decide (0 ≤ j)) as [Hj|Hj]; cycle 1.
  { by rewrite vec_get_negative in Hx by lia. }
  destruct (decide (j = Int.INT_MAX)) as [->|Hne].
  { rewrite IntFacts.add_1_max in Hy.
    by rewrite vec_get_negative in Hy by (unfold Int.INT_MIN; lia). }
  revert Hx Hy. rewrite <- (Z2Nat.id j) by done. set (k := Z.to_nat j).
  assert (Z.of_nat k < Int.INT_MAX) as Hk by lia.
  rewrite add_1_of_nat by done. rewrite !vec_get_of_nat. intros Hx Hy.
  exists (take k arr), (drop (S (S k)) arr).
  assert (length (take k arr) = k) as Hlen.
  { rewrite length_take. apply lookup_lt_Some in Hx. lia. }
  rewrite Hlen. split; [|done].
  rewrite <- (drop_S arr y (S k)) by done. by rewrite take_drop_middle.
Qed.

Lemma length_filter_swap (P : Z → Prop) `{∀ x, Decision (P x)} pre x y post :
  length (filter P (pre ++ x :: y :: post)) = length (filter P (pre ++ y :: x :: post)).
Proof.
  apply Permutation_length, filter_Permutation, Permutation_app_head, perm_swap.
Qed.

(** Exchanging two neighbours of which the left is the greater removes
    exactly one inversion. *)
Lemma inversions_swap pre x y post :
  x > y → inversions (pre ++ x :: y :: post) = S (inversions (pre ++ y :: x :: post)).
Proof.
  intros Hxy. induction pre as [|a pre IH]; simpl.
  - rewrite !filter_cons. rewrite decide_True by done.
    rewrite (decide_False (P := y > x)) by lia. simpl. lia.
  - rewrite IH, (length_filter_swap _ pre x y post). lia.
Qed.

Lemma filter_gt_below x l : Forall (Z.le x) l → filter (λ y, x > y) l = [].
Proof.
  induction 1 as [|y l Hy _ IH]; [done|].
  rewrite filter_cons, decide_False by lia. done.
Qed.

Lemma inversions_sorted l : StronglySorted Z.le l → inversions l = 0%nat.
Proof.
  induction 1 as [|x l _ IH Hx]; simpl; [done|].
  by rewrite IH, filter_gt_below.
Qed.

(** Each comparison keeps the sum of the swaps made and the inversions
    left. *)
Lemma cmp_swap_count_inversions t j :
  Int.in_range j →
  (swaps (cmp_swap_count t j) + inversions (cells (cmp_swap_count t j))
   = swaps t + inversions (cells t))%nat.
Proof.
  intros Hj. unfold cmp_swap_count.
  destruct (vec_get (cells t) j) as [x|] eqn:Hx; [|done].
  destruct (vec_get (cells t) (Int.add j 1)) as [y|] eqn:Hy; [|done].
  case_bool_decide as Hxy; [|done]. simpl.
  destruct (vec_get_neighbours (cells t) j x y Hj Hx Hy) as (pre & post & Hc & -> & Hk).
  pose proof (cmp_swap_middle pre x y post Hk) as Hswap.
  unfold cmp_swap in Hswap. rewrite <- Hc, Hx, Hy in Hswap.
  rewrite !bool_decide_eq_true_2 in Hswap by done.
  rewrite Hswap, Hc, (inversions_swap pre x y post Hxy). lia.
Qed.

Lemma bubbleSort_count_inversions arr :
  (swaps (bubbleSort_count arr) + inversions (bubbleSort arr) = inversions arr)%nat.
Proof.
  rewrite <- cells_bubbleSort_count. unfold bubbleSort_count.
  apply (foldl_invariant _ (λ _, True)
           (λ t, (swaps t + inversions (cells t) = inversions arr)%nat));
    [|by apply list.Forall_forall|done].
  intros t i _ Ht. unfold inner_loop_count.
  apply (foldl_invariant _ Int.in_range
           (λ t, (swaps t + inversions (cells t) = inversions arr)%nat)); [| |done].
  - intros t' j Hj Ht'. by rewrite cmp_swap_count_inversions.
  - apply list.Forall_forall. apply inner_range_in_range.
Qed.

(** ** The characters of the printed text *)

Lemma count_char_app c s1 s2 :
  count_char c (s1 +:+ s2) = (count_char c s1 + count_char c s2)%nat.
Proof.
  induction s1 as [|a s1 IH]; [done|].
  change (String a s1 +:+ s2) with (String a (s1 +:+ s2)). simpl. rewrite IH. lia.
Qed.

Lemma count_char_pretty_N_go c x s :
  (∀ d, pretty_N_char d ≠ c) → count_char c (pretty_N_go x s) = count_char c s.
Proof.
  intros Hc. revert s. induction (N.lt_wf_0 x) as [x _ IH]; intros s.
  assert (x = 0 ∨ 0 < x)%N as [->|Hx] by lia.
  - by rewrite pretty_N_go_0.
  - rewrite pretty_N_go_step by done. rewrite IH by (by apply N.div_lt).
    simpl. by rewrite decide_False by apply Hc.
Qed.

Lemma count_char_pretty_N c (x : N) :
  (∀ d, pretty_N_char d ≠ c) → count_char c (pretty x) = 0%nat.
Proof.
  intros Hc. unfold pretty, pretty_N. case_decide.
  - simpl. rewrite decide_False; [done|]. apply (Hc 0%N).
  - by rewrite count_char_pretty_N_go.
Qed.

(** A number is printed without the character [c] unless [c] is a digit or
    the sign. *)
Lemma count_char_pretty_Z c (z : Z) :
  (∀ d, pretty_N_char d ≠ c) → c ≠ "-"%char → count_char c (pretty z) = 0%nat.
Proof.
  intros Hc Hsign. destruct z as [|p|p]; unfold pretty, pretty_Z.
  - simpl. rewrite decide_False; [done|]. apply (Hc 0%N).
  - apply (count_char_pretty_N c (Npos p) Hc).
  - rewrite count_char_app.
    change (pretty p) with (pretty (Npos p)).
    rewrite (count_char_pretty_N c (Npos p) Hc).
    simpl. by rewrite decide_False by done.
Qed.

Lemma space_no_digit d : pretty_N_char d ≠ " "%char.
Proof. unfold pretty_N_char. by repeat case_match. Qed.

Lemma newline_no_digit d : pretty_N_char d ≠ Ascii.ascii_of_nat 10.
Proof. unfold pretty_N_char. by repeat case_match. Qed.

Lemma pretty_Z_no_space (z : Z) : count_char " " (pretty z) = 0%nat.
Proof. by apply count_char_pretty_Z; [apply space_no_digit|]. Qed.

Lemma pretty_Z_no_newline (z : Z) : count_char (Ascii.ascii_of_nat 10) (pretty z) = 0%nat.
Proof. by apply count_char_pretty_Z; [apply newline_no_digit|]. Qed.

Lemma count_char_foldl_print c arr :
  (∀ z : Z, count_char c (pretty z) = 0%nat) →
  count_char c (foldl print_num "" arr)
  = (length arr * count_char c " ")%nat.
Proof.
  intros Hc. induction arr as [|x l IH]; [done|].
  change (foldl print_num "" (x :: l)) with (foldl print_num (pretty x +:+ " ") l).
  rewrite foldl_print, !count_char_app, IH, Hc. simpl. lia.
Qed.

(** ** The printed line names its vector *)

Lemma printArray_app out arr : printArray out arr = out +:+ printArray "" arr.
Proof. unfold printArray. by rewrite foldl_print, string_app_assoc. Qed.

Lemma printArray_cons x l :
  printArray "" (x :: l) = pretty x +:+ String " " (printArray "" l).
Proof.
  unfold printArray.
  change (foldl print_num "" (x :: l)) with (foldl print_num (pretty x +:+ " ") l).
  rewrite foldl_print, !string_app_assoc. done.
Qed.

(** Two texts that agree up to and after their first [c] agree before it. *)
Lemma split_at_char c p1 p2 r1 r2 :
  count_char c p1 = 0%nat → count_char c p2 = 0%nat →
  p1 +:+ String c r1 = p2 +:+ String c r2 → p1 = p2 ∧ r1 = r2.
Proof.
  revert p2. induction p1 as [|a p1 IH]; intros [|b p2] H1 H2 Heq.
  - by injection Heq as ->.
  - exfalso. change (String c r1 = String b (p2 +:+ String c r2)) in Heq.
    injection Heq as -> _. simpl in H2. rewrite decide_True in H2 by done. lia.
  - exfalso. change (String a (p1 +:+ String c r1) = String c r2) in Heq.
    injection Heq as -> _. simpl in H1. rewrite decide_True in H1 by done. lia.
  - change (String a (p1 +:+ String c r1) = String b (p2 +:+ String c r2)) in Heq.
    injection Heq as -> Heq. simpl in H1, H2.
    destruct (IH p2) as [-> ->]; [lia..|done|done].
Qed.

Lemma printArray_inj_empty arr arr' :
  printArray "" arr = printArray "" arr' → arr = arr'.
Proof.
  revert arr'. induction arr as [|x l IH]; intros [|y l'] Heq; [done|..].
  - exfalso. apply (f_equal (count_char " ")) in Heq.
    rewrite printArray_cons, count_char_app in Heq. simpl in Heq. lia.
  - exfalso. apply (f_equal (count_char " ")) in Heq.
    rewrite printArray_cons, count_char_app in Heq. simpl in Heq. lia.
  - rewrite !printArray_cons in Heq.
    apply split_at_char in Heq as [Hxy Hl]; [|apply pretty_Z_no_space..].
    apply (inj pretty) in Hxy as ->. f_equal. by apply IH.
Qed.

Lemma printArray_inj out arr arr' :
  printArray out arr = printArray out arr' → arr = arr'.
Proof.
  rewrite (printArray_app out arr), (printArray_app out arr'). intros Heq.
  apply printArray_inj_empty. revert Heq. clear.
  induction out as [|a out IH]; [done|].
  intros Heq. apply IH.
  change (String a (out +:+ printArray "" arr) = String a (out +:+ printArray "" arr')) in Heq.
  by injection Heq.
Qed.

Lemma swaps_sorted_fit arr :
  size arr ≤ Int.INT_MAX → swaps (bubbleSort_count arr) = inversions arr.
Proof.
  intros Hfit. pose proof (bubbleSort_count_inversions arr) as H.
  rewrite (inversions_sorted (bubbleSort arr)) in H by by apply bubbleSort_sorted_fit.
  lia.
Qed.

Lemma comparisons_fit arr :
  size arr ≤ Int.INT_MAX →
  (2 * comparisons (bubbleSort_count arr) = length arr * (length arr - 1))%nat.
Proof.
  intros Hfit. rewrite comparisons_bubbleSort_count, length_outer_range_fit by done.
  destruct (length arr) as [|n]; simpl; [done|]. rewrite Nat.sub_0_r. lia.
Qed.

Lemma bubbleSort_unique_fit arr l :
  size arr ≤ Int.INT_MAX → l ≡ₚ arr → StronglySorted Z.le l → bubbleSort arr = l.
Proof.
  intros Hfit Hperm Hsorted.
  apply (StronglySorted_unique Z.le); [by apply bubbleSort_sorted_fit|done|].
  by rewrite bubbleSort_perm.
Qed.

(** * Further properties: the entries *)

(** X1.  [bubbleSort] never names a cell outside the vector: with every
    access checked the loops run to the same result for every vector, and
    for every [i] and [j] they reach, [j] and [j + 1] are indices of the
    vector and [j + 1] does not overflow. *)
Theorem bubbleSort_never_out_of_bounds arr :
  bubbleSort_checked arr = Some (bubbleSort arr) ∧
  ∀ i j, i ∈ outer_range arr → j ∈ int_range (inner_bound (Int.to_int (size arr)) i) →
    0 ≤ j ∧ j + 1 < size arr ∧ Int.add j 1 = j + 1.
Proof.
  split; [apply bubbleSort_checked_Some|].
  intros i j Hi Hj. destruct (loops_in_bounds arr i j Hi Hj) as (? & ? & ?). done.
Qed.


(** X3.  [bubbleSort] is idempotent: sorting the result again changes
    nothing, at every size. *)
Theorem bubbleSort_idempotent arr : bubbleSort (bubbleSort arr) = bubbleSort arr.
Proof. apply bubbleSort_twice. Qed.

(** X4.  For a vector whose size fits [int], the result of [bubbleSort] is
    the one non-decreasing arrangement of its elements. *)
Theorem bubbleSort_unique arr l :
  size arr ≤ Int.INT_MAX → l ≡ₚ arr → nondecreasing l → bubbleSort arr = l.
Proof.
  intros Hfit Hperm Hnd. apply bubbleSort_unique_fit; [done..|].
  by apply nondecreasing_StronglySorted.
Qed.

Lemma bubbleSort_unique_witness :
  size [3; 1; 2] ≤ Int.INT_MAX ∧ [1; 2; 3] ≡ₚ [3; 1; 2] ∧ nondecreasing [1; 2; 3] ∧
  bubbleSort [3; 1; 2] = [1; 2; 3].
Proof.
  assert (size [3; 1; 2] ≤ Int.INT_MAX) as Hfit by (vm_compute; discriminate).
  assert ([1; 2; 3] ≡ₚ [3; 1; 2]) as Hperm
    by (symmetry; apply (Permutation_cons_append [1; 2] 3)).
  assert (nondecreasing [1; 2; 3]) as Hnd.
  { apply StronglySorted_nondecreasing. repeat constructor; lia. }
  split; [exact Hfit|]. split; [exact Hperm|]. split; [exact Hnd|].
  exact (bubbleSort_unique [3; 1; 2] [1; 2; 3] Hfit Hperm Hnd).
Defined.

(** X5.  For vectors whose size fits [int], the result depends only on the
    elements, not on the order they are given in. *)
Theorem bubbleSort_order_insensitive arr arr' :
  size arr ≤ Int.INT_MAX → arr ≡ₚ arr' → bubbleSort arr = bubbleSort arr'.
Proof.
  intros Hfit Hperm. apply bubbleSort_unique_fit; [done| |].
  - by rewrite bubbleSort_perm.
  - apply bubbleSort_sorted_fit. unfold size in *.
    by rewrite <- (Permutation_length Hperm).
Qed.

Lemma bubbleSort_order_insensitive_witness :
  size [3; 1; 2] ≤ Int.INT_MAX ∧ [3; 1; 2] ≡ₚ [1; 2; 3] ∧
  bubbleSort [3; 1; 2] = bubbleSort [1; 2; 3].
Proof.
  assert (size [3; 1; 2] ≤ Int.INT_MAX) as Hfit by (vm_compute; discriminate).
  assert ([3; 1; 2] ≡ₚ [1; 2; 3]) as Hperm by apply (Permutation_cons_append [1; 2] 3).
  split; [exact Hfit|]. split; [exact Hperm|].
  exact (bubbleSort_order_insensitive _ _ Hfit Hperm).
Defined.

(** X6.  The loops have no early exit: on a vector of [n] elements ([n]
    fitting [int]) the test [arr[j] > arr[j + 1]] is evaluated exactly
    [n (n - 1) / 2] times, whatever the elements are. *)
Theorem bubbleSort_comparisons arr :
  size arr ≤ Int.INT_MAX →
  cells (bubbleSort_count arr) = bubbleSort arr ∧
  (2 * comparisons (bubbleSort_count arr) = length arr * (length arr - 1))%nat.
Proof. intros Hfit. split; [apply cells_bubbleSort_count|by apply comparisons_fit]. Qed.

Lemma bubbleSort_comparisons_witness :
  size main_arr ≤ Int.INT_MAX ∧
  cells (bubbleSort_count main_arr) = bubbleSort main_arr ∧
  (2 * comparisons (bubbleSort_count main_arr) = 7 * 6)%nat.
Proof.
  split; [vm_compute; discriminate|].
  apply (bubbleSort_comparisons main_arr). vm_compute. discriminate.
Defined.

(** X7.  On a vector whose size fits [int], [std::swap] is called once for
    each inversion of the input: as many times as there are pairs of cells
    [i < j] with [arr[i] > arr[j]]. *)
Theorem bubbleSort_swaps_inversions arr :
  size arr ≤ Int.INT_MAX → swaps (bubbleSort_count arr) = inversions arr.
Proof. apply swaps_sorted_fit. Qed.

Lemma bubbleSort_swaps_inversions_witness :
  size main_arr ≤ Int.INT_MAX ∧ inversions main_arr = 14%nat ∧
  swaps (bubbleSort_count main_arr) = inversions main_arr.
Proof.
  split; [vm_compute; discriminate|]. split; [vm_compute; reflexivity|].
  apply (bubbleSort_swaps_inversions main_arr). vm_compute. discriminate.
Defined.

(** X8.  On a vector that is already in non-decreasing order (its size
    fitting [int]) [bubbleSort] calls [std::swap] not once, and still
    evaluates its test [n (n - 1) / 2] times. *)
Theorem bubbleSort_sorted_cost arr :
  size arr ≤ Int.INT_MAX → nondecreasing arr →
  swaps (bubbleSort_count arr) = 0%nat ∧
  (2 * comparisons (bubbleSort_count arr) = length arr * (length arr - 1))%nat.
Proof.
  intros Hfit Hnd. split; [|by apply comparisons_fit].
  rewrite swaps_sorted_fit by done.
  by apply inversions_sorted, nondecreasing_StronglySorted.
Qed.

Lemma bubbleSort_sorted_cost_witness :
  size [1; 2; 2; 5] ≤ Int.INT_MAX ∧ nondecreasing [1; 2; 2; 5] ∧
  swaps (bubbleSort_count [1; 2; 2; 5]) = 0%nat ∧
  (2 * comparisons (bubbleSort_count [1; 2; 2; 5]%Z) = 4 * (4 - 1))%nat.
Proof.
  assert (size [1; 2; 2; 5] ≤ Int.INT_MAX) as Hfit by (vm_compute; discriminate).
  assert (nondecreasing [1; 2; 2; 5]) as Hnd.
  { apply StronglySorted_nondecreasing. repeat constructor; lia. }
  split; [exact Hfit|]. split; [exact Hnd|].
  exact (bubbleSort_sorted_cost [1; 2; 2; 5] Hfit Hnd).
Defined.

(** X9.  The line [printArray] writes names its vector: two vectors printed
    after the same text give the same text only if they are equal. *)
Theorem printArray_injective out arr arr' :
  printArray out arr = printArray out arr' → arr = arr'.
Proof. apply printArray_inj. Qed.

Lemma printArray_injective_witness :
  printArray "" [12; -3] = printArray "" [12; -3] ∧ [12; -3] = [12; -3] :> list Z.
Proof.
  split; [reflexivity|]. apply (printArray_injective "" [12; -3] [12; -3]). reflexivity.
Defined.

(** X10.  [printArray] writes one line: it adds exactly one line terminator
    to the text, as the last character, and exactly one space for each
    element of the vector. *)
Theorem printArray_one_line out arr :
  (∃ body, printArray out arr = out +:+ body +:+ endl ∧
           count_char (Ascii.ascii_of_nat 10) body = 0%nat) ∧
  count_char (Ascii.ascii_of_nat 10) (printArray out arr)
    = (count_char (Ascii.ascii_of_nat 10) out + 1)%nat ∧
  count_char " " (printArray out arr) = (count_char " " out + length arr)%nat.
Proof.
  assert (count_char (Ascii.ascii_of_nat 10) (foldl print_num "" arr) = 0%nat) as Hnl.
  { rewrite count_char_foldl_print by apply pretty_Z_no_newline. simpl. lia. }
  split; [|split].
  - exists (foldl print_num "" arr). split; [|done].
    unfold printArray. by rewrite foldl_print, string_app_assoc.
  - rewrite printArray_app, count_char_app. unfold printArray.
    rewrite count_char_app, Hnl. done.
  - rewrite printArray_app, count_char_app. unfold printArray.
    rewrite count_char_app, count_char_foldl_print by apply pretty_Z_no_space.
    simpl. lia.
Qed.
